(** * A rule-based chatbot: the question graph and the [chat] endpoint

    Shallow embedding of [main.py].  The module has two parts: the static
    dictionary [QUESTIONS] (a decision tree of multiple-choice questions) and
    the handler [chat], which reads a request (an optional answer and the
    conversation history the client sends along), may append one entry to that
    history, and either returns a [ChatResponse] or raises an
    [HTTPException].

    Python dictionaries are finite maps ([gmap]) keyed by strings, lists are
    lists, [Optional[T]] is [option T].  The handler appends to the request's
    history list in place, so it is written in a small state-and-exception
    monad whose state is the content of that list. *)

From stdpp Require Import base decidable option list strings gmap fin_maps.
From Stdlib Require Import ZArith.

(** ** Python values *)

(** Truth value of a [str]: every string but the empty one. *)
Definition truthy (s : string) : bool := negb (String.eqb s "").

(** [sep.join(l)]. *)
Definition join (sep : string) (l : list string) : string := String.concat sep l.

(** A dictionary display [{k1: v1, ..., kn: vn}] and a dictionary
    comprehension both insert their items from left to right, a later item
    overwriting an earlier one with the same key. *)
Definition dict {V : Type} (items : list (string * V)) : gmap string V :=
  foldl (fun d kv => <[kv.1 := kv.2]> d) ∅ items.

(** [l[-1]] on a list known to be non-empty; [None] stands for the empty
    list, on which the handler never evaluates it. *)
Definition last_item {A : Type} (l : list A) : option A := last l.

(** ** Request and response models *)

Record ConversationEntry : Type := mkConversationEntry {
  question_id : string;
  answer : string
}.

Record ChatRequest : Type := mkChatRequest {
  user_input : option string;
  conversation_history : list ConversationEntry
}.

Record ChatResponse : Type := mkChatResponse {
  message : string;
  response_question_id : option string;
  response_options : option (list string);
  response_conversation_history : list ConversationEntry;
  is_conversation_complete : bool;
  final_summary : option (gmap string string)
}.

Record HTTPException : Type := mkHTTPException {
  status_code : Z;
  detail : string
}.

(** ** The question graph *)

(** One value of [QUESTIONS]: every entry of the dictionary has the three
    keys ["question"], ["options"] and ["next_question_map"]. *)
Record QuestionConfig : Type := mkQuestionConfig {
  question : string;
  options : list string;
  next_question_map : gmap string string
}.

Definition QUESTIONS : gmap string QuestionConfig :=
  dict [
    ("q1_food_type",
     {| question := "What kind of food are you in the mood for?";
        options := ["Italian"; "Mexican"; "Indian"];
        next_question_map := dict [
          ("Italian", "q2_italian_preference");
          ("Mexican", "q2_mexican_spice");
          ("Indian", "q2_indian_dish") ] |});
    ("q2_italian_preference",
     {| question := "Do you prefer pasta or pizza?";
        options := ["Pasta"; "Pizza"];
        next_question_map := dict [
          ("Pasta", "q3_pasta_sauce");
          ("Pizza", "q3_pizza_toppings") ] |});
    ("q2_mexican_spice",
     {| question := "Do you like your Mexican food spicy or mild?";
        options := ["Spicy"; "Mild"];
        next_question_map := dict [
          ("Spicy", "q3_mexican_dish");
          ("Mild", "q3_mexican_dish") ] |});
    ("q2_indian_dish",
     {| question := "Great choice! Which Indian dish sounds good?";
        options := ["Curry"; "Biryani"; "Naan with Dal"];
        next_question_map := dict [
          ("Curry", "end");
          ("Biryani", "end");
          ("Naan with Dal", "end") ] |});
    ("q3_pasta_sauce",
     {| question := "Which pasta sauce would you prefer?";
        options := ["Marinara"; "Alfredo"; "Pesto"];
        next_question_map := dict [
          ("Marinara", "end");
          ("Alfredo", "end");
          ("Pesto", "end") ] |});
    ("q3_pizza_toppings",
     {| question := "Any specific pizza toppings in mind?";
        options := ["Pepperoni"; "Mushrooms"; "Vegetables"];
        next_question_map := dict [
          ("Pepperoni", "end");
          ("Mushrooms", "end");
          ("Vegetables", "end") ] |});
    ("q3_mexican_dish",
     {| question := "What kind of Mexican dish are you thinking of?";
        options := ["Tacos"; "Burritos"; "Enchiladas"];
        next_question_map := dict [
          ("Tacos", "end");
          ("Burritos", "end");
          ("Enchiladas", "end") ] |})
  ].

(** ** The handler's monad

    A computation runs on the current content of the request's history list
    and yields the content it leaves behind together with either the raised
    exception or a value. *)

Abbreviation History := (list ConversationEntry).

Definition Handler (A : Type) : Type := History -> History * (HTTPException + A).

#[global] Instance handler_ret : MRet Handler :=
  fun A (a : A) h => (h, inr a).

#[global] Instance handler_bind : MBind Handler :=
  fun A B (k : A -> Handler B) (m : Handler A) h =>
    match m h with
    | (h', inr a) => k a h'
    | (h', inl exn) => (h', inl exn)
    end.

Definition raise {A : Type} (exn : HTTPException) : Handler A :=
  fun h => (h, inl exn).

(** Reading the list the name [current_history] is bound to. *)
Definition read_history : Handler History := fun h => (h, inr h).

(** [current_history.append(entry)]. *)
Definition append (entry : ConversationEntry) : Handler unit :=
  fun h => (h ++ [entry], inr tt).

(** ** The [/chat] endpoint *)

Definition start_question_id : string := "q1_food_type".

Definition invalid_state : HTTPException :=
  {| status_code := 400;
     detail := "Invalid state: Could not determine next question." |}.

Definition invalid_input (asked : string) (user_input : string)
    (expected_options : list string) : HTTPException :=
  {| status_code := 400;
     detail := "Invalid input for '" +:+ asked +:+ "': '" +:+ user_input +:+ "'. "
               +:+ "Please choose from " +:+ join ", " expected_options +:+ "." |}.

Definition internal_error : HTTPException :=
  {| status_code := 500;
     detail := "Chatbot internal error: Could not find next question." |}.

Definition summary_message : string :=
  "Thank you for your responses! Here's a summary of your preferences:".

(** The first half of [chat], up to the response: it settles
    [next_question_id] and may append the submitted answer to the history.

    [last_question_id] and [last_answer] are [None] when the history is empty
    and the two fields of its last entry otherwise.  [next_question_id] is an
    [Optional[str]]: the [.get] on the submitted answer may leave [None] in
    it.  Every value of [QUESTIONS] is a non-empty dictionary with a
    ["next_question_map"] key, so the tests [prev_question_config and
    "next_question_map" in prev_question_config] reduce to the lookup having
    found a configuration, and the [else] branch that would set
    [next_question_id = "end"] after the append has no counterpart here. *)
Definition determine_next_question (user_input : option string)
    : Handler (option string) :=
  current_history ← read_history;
  (* Determine the current state of the conversation *)
  let last_entry := last_item current_history in
  let last_question_id := question_id <$> last_entry in
  let last_answer := answer <$> last_entry in
  (* Determine the next question ID based on the last answer *)
  next_question_id ←
    match last_question_id, last_answer with
    | Some last_question_id, Some last_answer =>
        if truthy last_question_id && truthy last_answer then
          match QUESTIONS !! last_question_id with
          | Some prev_question_config =>
              match next_question_map prev_question_config !! last_answer with
              | Some next => mret (Some next)
              | None => raise invalid_state
              end
          | None => mret (Some start_question_id)
          end
        else mret (Some start_question_id)
    | _, _ => mret (Some start_question_id)
    end;
  (* Process user input if provided *)
  match user_input with
  | Some user_input =>
      match last_question_id with
      | Some last_question_id =>
          match (if truthy last_question_id
                 then QUESTIONS !! last_question_id else None) with
          | Some config =>
              let expected_options := options config in
              if bool_decide (user_input ∈ expected_options) then
                _ ← append {| question_id := last_question_id;
                              answer := user_input |};
                mret (next_question_map config !! user_input)
              else
                raise (invalid_input (question config) user_input
                         expected_options)
          | None => mret next_question_id
          end
      | None => mret next_question_id
      end
  | None => mret next_question_id
  end.

(** The [final_summary] comprehension. *)
Definition summary_of (history : History) : gmap string string :=
  dict ((fun entry => (question_id entry, answer entry)) <$> history).

(** The second half of [chat]: the response for the [next_question_id] just
    settled. *)
Definition prepare_response (next_question_id : option string)
    : Handler ChatResponse :=
  current_history ← read_history;
  if bool_decide (next_question_id = Some "end") then
    (* Conversation is complete *)
    mret {| message := summary_message;
            response_question_id := None;
            response_options := None;
            response_conversation_history := current_history;
            is_conversation_complete := true;
            final_summary := Some (summary_of current_history) |}
  else
    match next_question_id with
    | Some next_question_id =>
        match QUESTIONS !! next_question_id with
        | Some next_question_config =>
            (* Ask the next question *)
            mret {| message := question next_question_config;
                    response_question_id := Some next_question_id;
                    response_options := Some (options next_question_config);
                    response_conversation_history := current_history;
                    is_conversation_complete := false;
                    final_summary := None |}
        | None => raise internal_error
        end
    | None => raise internal_error
    end.

Definition chat_body (user_input : option string) : Handler ChatResponse :=
  next_question_id ← determine_next_question user_input;
  prepare_response next_question_id.

(** [chat(request)]: the handler run on the request's own history list.  The
    first component of the result is what that list holds afterwards, the
    second what the call raises or returns. *)
Definition chat (request : ChatRequest) : History * (HTTPException + ChatResponse) :=
  chat_body (user_input request) (conversation_history request).

(** ** Reading the graph *)

(** The configurations well formed in themselves: the keys of the transition
    map are the option labels. *)
Definition keys_are_options (config : QuestionConfig) : Prop :=
  dom (next_question_map config) = list_to_set (options config).

(** A transition target that the response step can serve. *)
Definition known_target (target : string) : Prop :=
  target = "end" ∨ is_Some (QUESTIONS !! target).

Definition targets_known (config : QuestionConfig) : Prop :=
  map_Forall (fun _ target => known_target target) (next_question_map config).

#[global] Instance known_target_dec target : Decision (known_target target).
Proof. unfold known_target. apply _. Defined.

#[global] Instance keys_are_options_dec config : Decision (keys_are_options config).
Proof. unfold keys_are_options. apply _. Defined.

#[global] Instance targets_known_dec config : Decision (targets_known config).
Proof. unfold targets_known. apply _. Defined.


(** ** Outcomes

    The response shapes and exceptions by the names the specification gives
    them.  [Continue] asks the question [id]; [Complete] closes the
    conversation with the summary of the history. *)

Definition Continue (id : string) (config : QuestionConfig) (history : History)
    : ChatResponse :=
  {| message := question config;
     response_question_id := Some id;
     response_options := Some (options config);
     response_conversation_history := history;
     is_conversation_complete := false;
     final_summary := None |}.

Definition Complete (history : History) : ChatResponse :=
  {| message := summary_message;
     response_question_id := None;
     response_options := None;
     response_conversation_history := history;
     is_conversation_complete := true;
     final_summary := Some (summary_of history) |}.

(** [InvalidAnswer]: the 400 that rejects a submitted answer. *)
Definition InvalidAnswer (exn : HTTPException) : Prop :=
  ∃ asked user_input expected_options,
    exn = invalid_input asked user_input expected_options.

(** [CorruptHistory]: the 400 raised when the last entry has no transition. *)
Definition CorruptHistory (exn : HTTPException) : Prop := exn = invalid_state.

(** What the first block of [chat] leaves in [next_question_id] for a last
    entry [entry] whose question has the configuration [config]; [None] when
    it raises instead. *)
Definition from_last_entry (entry : ConversationEntry) (config : QuestionConfig)
    : option string :=
  if truthy (answer entry) then next_question_map config !! answer entry
  else Some start_question_id.

(** ** Paths of the graph *)

(** One step along the graph: from question [id], the option [label] leads to
    the target of the transition map.  There is no step from an identifier
    that is not a question (["end"] in particular) nor along a label that is
    not an option. *)
Definition resolve_next (id label : string) : option string :=
  config ← QUESTIONS !! id;
  if bool_decide (label ∈ options config)
  then next_question_map config !! label
  else None.

(** Where the labels [labels], followed in order from [id], lead. *)
Fixpoint follow (id : string) (labels : list string) : option string :=
  match labels with
  | [] => Some id
  | label :: rest => resolve_next id label ≫= fun next => follow next rest
  end.

(** Number of questions still to ask on the longest way from an identifier to
    ["end"]; used as the measure that every transition decreases. *)
Definition height (id : string) : nat :=
  if bool_decide (id = "q1_food_type") then 3
  else if bool_decide (id ∈ ["q2_italian_preference"; "q2_mexican_spice";
                             "q2_indian_dish"]) then 2
  else if bool_decide (id ∈ ["q3_pasta_sauce"; "q3_pizza_toppings";
                             "q3_mexican_dish"]) then 1
  else 0.

Definition descends (id : string) (config : QuestionConfig) : Prop :=
  map_Forall (fun _ target => height target < height id)
             (next_question_map config).

#[global] Instance descends_dec id config : Decision (descends id config).
Proof. unfold descends. apply _. Defined.

(** ** Scenarios

    The request of the specification's scenario 3 and the history that
    scenario 4 completes. *)

Definition scenario3 : ChatRequest :=
  {| user_input := Some "Pizza";
     conversation_history :=
       [ {| question_id := "q1_food_type"; answer := "Italian" |} ] |}.

Definition scenario4_history : History :=
  [ {| question_id := "q1_food_type"; answer := "Italian" |};
    {| question_id := "q2_italian_preference"; answer := "Pizza" |};
    {| question_id := "q3_pizza_toppings"; answer := "Mushrooms" |} ].

(** ** Histories that walk the graph *)

(** Where a history stands when it is read as a walk that starts at [id]:
    each entry must name the question the walk stands on and record one of
    its options, which leads to the next question.  [None] when some entry
    does neither. *)
Fixpoint replay (id : string) (history : History) : option string :=
  match history with
  | [] => Some id
  | entry :: rest =>
      if bool_decide (question_id entry = id)
      then resolve_next id (answer entry) ≫= fun next => replay next rest
      else None
  end.

(** Number of questions still to ask on the shortest way from an identifier
    to ["end"]; no transition saves more than one of them. *)
Definition shortest (id : string) : nat :=
  if bool_decide (id ∈ ["q1_food_type"; "q2_italian_preference";
                        "q2_mexican_spice"]) then 2
  else if bool_decide (id ∈ ["q2_indian_dish"; "q3_pasta_sauce";
                             "q3_pizza_toppings"; "q3_mexican_dish"]) then 1
  else 0.

Definition no_shortcut (id : string) (config : QuestionConfig) : Prop :=
  map_Forall (fun _ target => shortest id ≤ S (shortest target))
             (next_question_map config).

#[global] Instance no_shortcut_dec id config : Decision (no_shortcut id config).
Proof. unfold no_shortcut. apply _. Defined.

(** The labels a question offers: pairwise distinct, none of them empty. *)
Definition labels_proper (config : QuestionConfig) : Prop :=
  NoDup (options config) ∧ "" ∉ options config.

#[global] Instance labels_proper_dec config : Decision (labels_proper config).
Proof. unfold labels_proper. apply _. Defined.

(** ** Facts about [QUESTIONS], by evaluation *)

Lemma QUESTIONS_checked :
  map_Forall (fun _ config => keys_are_options config ∧ targets_known config)
             QUESTIONS.
Proof. apply (bool_decide_unpack _). vm_compute. reflexivity. Qed.

Lemma QUESTIONS_descend : map_Forall descends QUESTIONS.
Proof. apply (bool_decide_unpack _). vm_compute. reflexivity. Qed.

Lemma QUESTIONS_have_options :
  map_Forall (fun _ config => options config ≠ []) QUESTIONS.
Proof. apply (bool_decide_unpack _). vm_compute. reflexivity. Qed.

Lemma QUESTIONS_start :
  QUESTIONS !! start_question_id =
    Some {| question := "What kind of food are you in the mood for?";
            options := ["Italian"; "Mexican"; "Indian"];
            next_question_map := dict [
              ("Italian", "q2_italian_preference");
              ("Mexican", "q2_mexican_spice");
              ("Indian", "q2_indian_dish") ] |}.
Proof. vm_compute. reflexivity. Qed.

Lemma QUESTIONS_end : QUESTIONS !! "end" = None.
Proof. vm_compute. reflexivity. Qed.

Lemma QUESTIONS_empty_key : QUESTIONS !! "" = None.
Proof. vm_compute. reflexivity. Qed.

Lemma option_has_transition id config label :
  QUESTIONS !! id = Some config →
  label ∈ options config ↔ is_Some (next_question_map config !! label).
Proof.
  intros Hid. destruct (QUESTIONS_checked id config Hid) as [Hkeys _].
  unfold keys_are_options in Hkeys.
  rewrite <- elem_of_dom, Hkeys, elem_of_list_to_set. reflexivity.
Qed.

Lemma transition_target_known id config label target :
  QUESTIONS !! id = Some config →
  next_question_map config !! label = Some target →
  known_target target.
Proof.
  intros Hid Hlabel. destruct (QUESTIONS_checked id config Hid) as [_ Htargets].
  exact (Htargets label target Hlabel).
Qed.

Lemma transition_descends id config label target :
  QUESTIONS !! id = Some config →
  next_question_map config !! label = Some target →
  height target < height id.
Proof.
  intros Hid Hlabel. exact (QUESTIONS_descend id config Hid label target Hlabel).
Qed.

(** ** The handler, case by case *)

Lemma truthy_true s : truthy s = true ↔ s ≠ "".
Proof.
  unfold truthy. rewrite negb_true_iff. split.
  - intros H ->. discriminate.
  - intros H. apply String.eqb_neq. exact H.
Qed.

Lemma truthy_question id config : QUESTIONS !! id = Some config → truthy id = true.
Proof.
  intros Hid. apply truthy_true. intros ->.
  rewrite QUESTIONS_empty_key in Hid. discriminate.
Qed.

Section Cases.

Local Opaque QUESTIONS.

Ltac run_handler :=
  unfold chat_body, determine_next_question, prepare_response,
    mbind, handler_bind, mret, handler_ret, read_history, raise, append;
  cbn [fmap option_fmap option_map].

Variables (history : History) (entry : ConversationEntry).
Hypothesis Hlast : last_item history = Some entry.

Lemma determine_start user_input :
  determine_next_question user_input [] = ([], inr (Some start_question_id)).
Proof. run_handler. destruct user_input; reflexivity. Qed.

Lemma determine_unknown user_input :
  QUESTIONS !! question_id entry = None →
  determine_next_question user_input history
  = (history, inr (Some start_question_id)).
Proof.
  intros Hid. run_handler. rewrite Hlast. cbn [fmap option_fmap option_map].
  rewrite Hid.
  destruct (truthy (question_id entry)), (truthy (answer entry)), user_input;
    reflexivity.
Qed.

Variable config : QuestionConfig.
Hypothesis Hid : QUESTIONS !! question_id entry = Some config.

Lemma determine_no_transition user_input :
  answer entry ≠ "" →
  next_question_map config !! answer entry = None →
  determine_next_question user_input history = (history, inl invalid_state).
Proof.
  intros Hanswer Hnone. run_handler. rewrite Hlast.
  cbn [fmap option_fmap option_map].
  rewrite (truthy_question _ _ Hid), (proj2 (truthy_true _) Hanswer), Hid, Hnone.
  reflexivity.
Qed.

Lemma determine_no_input :
  determine_next_question None history
  = match from_last_entry entry config with
    | Some next => (history, inr (Some next))
    | None => (history, inl invalid_state)
    end.
Proof.
  run_handler. rewrite Hlast. cbn [fmap option_fmap option_map].
  unfold from_last_entry. rewrite (truthy_question _ _ Hid), Hid.
  destruct (truthy (answer entry)); cbn [andb]; [| reflexivity].
  destruct (next_question_map config !! answer entry); reflexivity.
Qed.

Lemma determine_invalid user_input :
  is_Some (from_last_entry entry config) →
  user_input ∉ options config →
  determine_next_question (Some user_input) history
  = (history, inl (invalid_input (question config) user_input (options config))).
Proof.
  intros [next Hnext] Hnot. run_handler. rewrite Hlast.
  cbn [fmap option_fmap option_map]. unfold from_last_entry in Hnext.
  rewrite (truthy_question _ _ Hid), Hid, (bool_decide_eq_false_2 _ Hnot).
  destruct (truthy (answer entry)); cbn [andb]; [| reflexivity].
  rewrite Hnext. reflexivity.
Qed.

Lemma determine_valid user_input :
  is_Some (from_last_entry entry config) →
  user_input ∈ options config →
  determine_next_question (Some user_input) history
  = (history ++ [ {| question_id := question_id entry; answer := user_input |} ],
     inr (next_question_map config !! user_input)).
Proof.
  intros [next Hnext] Hin. run_handler. rewrite Hlast.
  cbn [fmap option_fmap option_map]. unfold from_last_entry in Hnext.
  rewrite (truthy_question _ _ Hid), Hid, (bool_decide_eq_true_2 _ Hin).
  destruct (truthy (answer entry)); cbn [andb]; [| reflexivity].
  rewrite Hnext. reflexivity.
Qed.

End Cases.

Section Responses.
Local Opaque QUESTIONS.

Lemma prepare_end history :
  prepare_response (Some "end") history = (history, inr (Complete history)).
Proof. reflexivity. Qed.

Lemma prepare_question id config history :
  QUESTIONS !! id = Some config →
  prepare_response (Some id) history = (history, inr (Continue id config history)).
Proof.
  intros Hid. unfold prepare_response, mbind, handler_bind, read_history.
  rewrite bool_decide_eq_false_2.
  - rewrite Hid. reflexivity.
  - intros [= ->]. rewrite QUESTIONS_end in Hid. discriminate.
Qed.
End Responses.

(** ** What a call can end in *)

Lemma invalid_input_is_not_invalid_state asked submitted expected_options :
  invalid_input asked submitted expected_options ≠ invalid_state.
Proof. unfold invalid_input, invalid_state. intros [=]. Qed.

Lemma from_last_entry_is_Some entry config :
  is_Some (from_last_entry entry config)
  ↔ answer entry = "" ∨ is_Some (next_question_map config !! answer entry).
Proof.
  unfold from_last_entry. destruct (truthy (answer entry)) eqn:Htruthy.
  - apply truthy_true in Htruthy. tauto.
  - split; [intros _ | eauto]. left.
    destruct (decide (answer entry = "")) as [|Hne]; [assumption |].
    apply truthy_true in Hne. congruence.
Qed.

Lemma from_last_entry_None entry config :
  from_last_entry entry config = None
  ↔ answer entry ≠ "" ∧ next_question_map config !! answer entry = None.
Proof.
  unfold from_last_entry. destruct (truthy (answer entry)) eqn:Htruthy.
  - apply truthy_true in Htruthy. tauto.
  - split; [discriminate |]. intros [Hne _].
    apply truthy_true in Hne. congruence.
Qed.

Lemma from_last_entry_known id entry config next :
  QUESTIONS !! id = Some config →
  from_last_entry entry config = Some next →
  known_target next.
Proof.
  unfold from_last_entry. intros Hid. destruct (truthy (answer entry)).
  - apply (transition_target_known _ _ _ _ Hid).
  - intros [= <-]. right. rewrite QUESTIONS_start. eauto.
Qed.

(** The response step serves every known target. *)
Lemma prepare_known target history :
  known_target target →
  ∃ response,
    prepare_response (Some target) history = (history, inr response)
    ∧ (response = Complete history
       ∨ ∃ config, QUESTIONS !! target = Some config
                   ∧ response = Continue target config history).
Proof.
  intros [-> | [config Hid]].
  - exists (Complete history). split; [apply prepare_end | by left].
  - exists (Continue target config history).
    split; [by apply prepare_question | right; eauto].
Qed.

(** The first half of [chat] either raises one of the two 400s, leaving the
    history alone, or settles on a known target. *)
Lemma determine_outcome user_input history :
  match determine_next_question user_input history with
  | (_, inr next) => ∃ target, next = Some target ∧ known_target target
  | (history', inl exn) =>
      history' = history ∧ (CorruptHistory exn ∨ InvalidAnswer exn)
  end.
Proof.
  destruct (last_item history) as [entry|] eqn:Hlast.
  - destruct (QUESTIONS !! question_id entry) as [config|] eqn:Hid.
    + destruct (from_last_entry entry config) as [next|] eqn:Hnext.
      * destruct user_input as [submitted|].
        -- destruct (decide (submitted ∈ options config)) as [Hin|Hnot].
           ++ rewrite (determine_valid _ _ Hlast _ Hid); [| by eauto | done].
              destruct (proj1 (option_has_transition _ _ _ Hid) Hin)
                as [target Htarget].
              exists target. split; [done |].
              by eapply transition_target_known.
           ++ rewrite (determine_invalid _ _ Hlast _ Hid); [| by eauto | done].
              split; [done |]. right. by repeat eexists.
        -- rewrite (determine_no_input _ _ Hlast _ Hid), Hnext.
           exists next. split; [done |]. by eapply from_last_entry_known.
      * apply from_last_entry_None in Hnext as [Hanswer Hnone].
        rewrite (determine_no_transition _ _ Hlast _ Hid); [| done | done].
        split; [done |]. by left.
    + rewrite (determine_unknown _ _ Hlast _ Hid).
      exists start_question_id. split; [done |].
      right. rewrite QUESTIONS_start. eauto.
  - apply last_None in Hlast as ->. rewrite determine_start.
    exists start_question_id. split; [done |].
    right. rewrite QUESTIONS_start. eauto.
Qed.

Lemma chat_outcome request :
  match chat request with
  | (history', inr response) =>
      response = Complete history'
      ∨ ∃ id config, QUESTIONS !! id = Some config
                     ∧ response = Continue id config history'
  | (history', inl exn) =>
      history' = conversation_history request
      ∧ (CorruptHistory exn ∨ InvalidAnswer exn)
  end.
Proof.
  unfold chat, chat_body, mbind, handler_bind.
  pose proof (determine_outcome (user_input request) (conversation_history request))
    as Hdet.
  destruct (determine_next_question _ _) as [history' [exn|next]]; [done |].
  destruct Hdet as (target & -> & Hknown).
  destruct (prepare_known target history' Hknown) as (response & -> & Hshape).
  destruct Hshape as [-> | (config & Hid & ->)]; [by left | right; eauto].
Qed.

(** ** Scenario 3: an answer to the question just asked *)

(** C1.  On the history [[{q1_food_type, Italian}]] the question being asked
    is q2_italian_preference, and "Pizza" is one of its options; yet [chat]
    checks the submitted answer against the options of q1_food_type, the
    question of the last entry, and rejects it with the 400 for an invalid
    input.  Nothing is appended and no question q3_pizza_toppings is asked. *)
Theorem scenario3_pizza_is_rejected :
  chat scenario3
  = ([ {| question_id := "q1_food_type"; answer := "Italian" |} ],
     inl {| status_code := 400;
            detail := "Invalid input for 'What kind of food are you in the mood for?': 'Pizza'. Please choose from Italian, Mexican, Indian." |})
  ∧ resolve_next "q1_food_type" "Italian" = Some "q2_italian_preference"
  ∧ resolve_next "q2_italian_preference" "Pizza" = Some "q3_pizza_toppings".
Proof. repeat split; vm_compute; reflexivity. Qed.

(** ** Histories ending in an unknown question *)

Lemma unknown_question_is_not_rejected :
  let history := [ {| question_id := "q9_dessert"; answer := "Cake" |} ] in
  QUESTIONS !! "q9_dessert" = None
  ∧ chat {| user_input := Some "Italian"; conversation_history := history |}
    = (history,
       inr {| message := "What kind of food are you in the mood for?";
              response_question_id := Some "q1_food_type";
              response_options := Some ["Italian"; "Mexican"; "Indian"];
              response_conversation_history := history;
              is_conversation_complete := false;
              final_summary := None |}).
Proof. split; vm_compute; reflexivity. Qed.

(** C2, as the code has it.  When the last entry of a non-empty history names
    a question that is not in the graph, [chat] raises nothing: whatever the
    submitted answer, it asks the start question q1_food_type again and
    returns the history as it came. *)
Theorem unknown_question_restarts (request : ChatRequest) (entry : ConversationEntry) :
  last_item (conversation_history request) = Some entry →
  QUESTIONS !! question_id entry = None →
  ∃ config,
    QUESTIONS !! "q1_food_type" = Some config
    ∧ chat request
      = (conversation_history request,
         inr (Continue "q1_food_type" config (conversation_history request))).
Proof.
  intros Hlast Hid. eexists. split; [exact QUESTIONS_start |].
  unfold chat, chat_body, mbind, handler_bind.
  rewrite (determine_unknown _ _ Hlast _ Hid).
  apply prepare_question, QUESTIONS_start.
Qed.

Lemma unknown_question_restarts_witness :
  ∃ config,
    QUESTIONS !! "q1_food_type" = Some config
    ∧ chat {| user_input := None;
              conversation_history :=
                [ {| question_id := "q9_dessert"; answer := "Cake" |} ] |}
      = ([ {| question_id := "q9_dessert"; answer := "Cake" |} ],
         inr (Continue "q1_food_type" config
                [ {| question_id := "q9_dessert"; answer := "Cake" |} ])).
Proof.
  apply (unknown_question_restarts
           {| user_input := None;
              conversation_history :=
                [ {| question_id := "q9_dessert"; answer := "Cake" |} ] |}
           {| question_id := "q9_dessert"; answer := "Cake" |}).
  - reflexivity.
  - vm_compute. reflexivity.
Defined.

(** ** The first request *)

(** C6.  On an empty history [chat] asks the start question q1_food_type,
    with its prompt and its three options, and returns the empty history;
    this is so without a submitted answer and with any submitted answer,
    which is ignored. *)
Theorem start_question_whatever_the_input (submitted : option string) :
  chat {| user_input := submitted; conversation_history := [] |}
  = ([],
     inr {| message := "What kind of food are you in the mood for?";
            response_question_id := Some "q1_food_type";
            response_options := Some ["Italian"; "Mexican"; "Indian"];
            response_conversation_history := [];
            is_conversation_complete := false;
            final_summary := None |}).
Proof.
  unfold chat, chat_body, mbind, handler_bind.
  cbn [user_input conversation_history].
  rewrite determine_start. rewrite (prepare_question _ _ _ QUESTIONS_start).
  reflexivity.
Qed.

(** ** Histories whose last answer has no transition *)

Lemma empty_answer_is_not_rejected :
  let history := [ {| question_id := "q1_food_type"; answer := "" |} ] in
  (∃ config, QUESTIONS !! "q1_food_type" = Some config
             ∧ next_question_map config !! "" = None)
  ∧ chat {| user_input := None; conversation_history := history |}
    = (history,
       inr {| message := "What kind of food are you in the mood for?";
              response_question_id := Some "q1_food_type";
              response_options := Some ["Italian"; "Mexican"; "Indian"];
              response_conversation_history := history;
              is_conversation_complete := false;
              final_summary := None |}).
Proof.
  split; [eexists; split; [exact QUESTIONS_start |] |]; vm_compute; reflexivity.
Qed.

(** C7, as the code has it.  When the last entry of the history names a
    question of the graph and its recorded answer is not empty and is not a
    key of that question's transition map, [chat] raises the 400 "Invalid
    state: Could not determine next question." (CorruptHistory), with or
    without a submitted answer, and leaves the history as it came. *)
Theorem missing_transition_is_corrupt
    (request : ChatRequest) (entry : ConversationEntry) (config : QuestionConfig) :
  last_item (conversation_history request) = Some entry →
  QUESTIONS !! question_id entry = Some config →
  answer entry ≠ "" →
  next_question_map config !! answer entry = None →
  chat request = (conversation_history request, inl invalid_state)
  ∧ CorruptHistory invalid_state
  ∧ status_code invalid_state = 400%Z.
Proof.
  intros Hlast Hid Hanswer Hnone. split; [| split; reflexivity].
  unfold chat, chat_body, mbind, handler_bind.
  rewrite (determine_no_transition _ _ Hlast _ Hid _ Hanswer Hnone).
  reflexivity.
Qed.

Lemma missing_transition_is_corrupt_witness :
  chat {| user_input := Some "X";
          conversation_history :=
            [ {| question_id := "q1_food_type"; answer := "Unicorn" |} ] |}
  = ([ {| question_id := "q1_food_type"; answer := "Unicorn" |} ],
     inl invalid_state)
  ∧ CorruptHistory invalid_state
  ∧ status_code invalid_state = 400%Z.
Proof.
  refine (missing_transition_is_corrupt
            {| user_input := Some "X";
               conversation_history :=
                 [ {| question_id := "q1_food_type"; answer := "Unicorn" |} ] |}
            {| question_id := "q1_food_type"; answer := "Unicorn" |}
            _ _ QUESTIONS_start _ _).
  - reflexivity.
  - discriminate.
  - vm_compute. reflexivity.
Defined.

(** ** Validation of the submitted answer *)

Lemma unicorn_is_corrupt_not_invalid :
  let history := [ {| question_id := "q1_food_type"; answer := "Unicorn" |} ] in
  (∃ config, QUESTIONS !! "q1_food_type" = Some config ∧ "X" ∉ options config)
  ∧ chat {| user_input := Some "X"; conversation_history := history |}
    = (history,
       inl {| status_code := 400;
              detail := "Invalid state: Could not determine next question." |})
  ∧ ¬ InvalidAnswer
        {| status_code := 400;
           detail := "Invalid state: Could not determine next question." |}.
Proof.
  split; [| split].
  - eexists. split; [exact QUESTIONS_start |].
    cbn [options]. apply (bool_decide_unpack _). vm_compute. reflexivity.
  - vm_compute. reflexivity.
  - intros (asked & submitted & expected & H).
    symmetry in H. exact (invalid_input_is_not_invalid_state _ _ _ H).
Qed.

(** C4, as the code has it.  When the last entry of the history names a
    question of the graph, its recorded answer is empty or a key of that
    question's transition map, and the submitted answer is not one of that
    question's options, [chat] raises the 400 "Invalid input ..."
    (InvalidAnswer) built from that question's prompt and options; no entry
    is appended to the history and no response is produced. *)
Theorem invalid_answer_is_rejected
    (history : History) (entry : ConversationEntry) (config : QuestionConfig)
    (submitted : string) :
  last_item history = Some entry →
  QUESTIONS !! question_id entry = Some config →
  answer entry = "" ∨ is_Some (next_question_map config !! answer entry) →
  submitted ∉ options config →
  chat {| user_input := Some submitted; conversation_history := history |}
  = (history,
     inl (invalid_input (question config) submitted (options config)))
  ∧ InvalidAnswer (invalid_input (question config) submitted (options config)).
Proof.
  intros Hlast Hid Hanswer Hnot. split; [| by repeat eexists].
  unfold chat, chat_body, mbind, handler_bind.
  cbn [user_input conversation_history].
  rewrite (determine_invalid _ _ Hlast _ Hid); [done | | done].
  by apply from_last_entry_is_Some.
Qed.

Lemma invalid_answer_is_rejected_witness :
  chat {| user_input := Some "Sushi";
          conversation_history :=
            [ {| question_id := "q1_food_type"; answer := "Italian" |} ] |}
  = ([ {| question_id := "q1_food_type"; answer := "Italian" |} ],
     inl (invalid_input "What kind of food are you in the mood for?" "Sushi"
            ["Italian"; "Mexican"; "Indian"]))
  ∧ InvalidAnswer
      (invalid_input "What kind of food are you in the mood for?" "Sushi"
         ["Italian"; "Mexican"; "Indian"]).
Proof.
  refine (invalid_answer_is_rejected
            [ {| question_id := "q1_food_type"; answer := "Italian" |} ]
            {| question_id := "q1_food_type"; answer := "Italian" |}
            _ "Sushi" _ QUESTIONS_start _ _).
  - reflexivity.
  - right. vm_compute. eauto.
  - apply (bool_decide_unpack _). vm_compute. reflexivity.
Defined.

(** C5.  When the last entry of the history names a question of the graph
    and the submitted answer is one of that question's options, every
    response [chat] returns carries the history it received followed by one
    new entry, the last entry's question with the submitted answer, and the
    request's own list holds the same.  [chat] does return a response
    whenever the last recorded answer is empty or a key of the question's
    transition map; otherwise it raises CorruptHistory and appends
    nothing. *)
Theorem valid_answer_is_appended
    (history : History) (entry : ConversationEntry) (config : QuestionConfig)
    (submitted : string) :
  last_item history = Some entry →
  QUESTIONS !! question_id entry = Some config →
  submitted ∈ options config →
  let request := {| user_input := Some submitted;
                    conversation_history := history |} in
  let appended :=
    history ++ [ {| question_id := question_id entry; answer := submitted |} ] in
  (∀ response, (chat request).2 = inr response →
     (chat request).1 = appended
     ∧ response_conversation_history response = appended)
  ∧ (answer entry = "" ∨ is_Some (next_question_map config !! answer entry) →
     ∃ response, chat request = (appended, inr response)
                 ∧ response_conversation_history response = appended)
  ∧ (¬ (answer entry = "" ∨ is_Some (next_question_map config !! answer entry)) →
     chat request = (history, inl invalid_state)).
Proof.
  intros Hlast Hid Hin request appended.
  assert (Hsuccess :
    is_Some (from_last_entry entry config) →
    ∃ response, chat request = (appended, inr response)
                ∧ response_conversation_history response = appended).
  { intros Hsome. unfold chat, chat_body, mbind, handler_bind, request.
    cbn [user_input conversation_history].
    rewrite (determine_valid _ _ Hlast _ Hid _ Hsome Hin).
    destruct (proj1 (option_has_transition _ _ _ Hid) Hin) as [target Htarget].
    rewrite Htarget. fold appended.
    destruct (prepare_known target appended) as (response & -> & Hshape).
    - by eapply transition_target_known.
    - exists response. split; [done |].
      by destruct Hshape as [-> | (? & _ & ->)]. }
  assert (Hfailure :
    from_last_entry entry config = None →
    chat request = (history, inl invalid_state)).
  { intros [Hanswer Hnone]%from_last_entry_None.
    unfold chat, chat_body, mbind, handler_bind, request.
    cbn [user_input conversation_history].
    by rewrite (determine_no_transition _ _ Hlast _ Hid _ Hanswer Hnone). }
  split; [| split].
  - intros response Hresponse.
    destruct (from_last_entry entry config) as [next|] eqn:Hnext.
    + destruct Hsuccess as (response' & Hchat & Hhist); [by eauto |].
      rewrite Hchat in Hresponse |- *. cbn in Hresponse |- *.
      by injection Hresponse as <-.
    + rewrite Hfailure in Hresponse by done. discriminate Hresponse.
  - intros Hanswer. by apply Hsuccess, from_last_entry_is_Some.
  - intros Hanswer. apply Hfailure, eq_None_not_Some.
    by rewrite from_last_entry_is_Some.
Qed.

Lemma valid_answer_is_appended_witness :
  let history := [ {| question_id := "q1_food_type"; answer := "Italian" |} ] in
  let request := {| user_input := Some "Mexican";
                    conversation_history := history |} in
  let appended :=
    history ++ [ {| question_id := "q1_food_type"; answer := "Mexican" |} ] in
  (∀ response, (chat request).2 = inr response →
     (chat request).1 = appended
     ∧ response_conversation_history response = appended)
  ∧ ("Italian" = "" ∨ is_Some (dict [
              ("Italian", "q2_italian_preference");
              ("Mexican", "q2_mexican_spice");
              ("Indian", "q2_indian_dish") ] !! "Italian") →
     ∃ response, chat request = (appended, inr response)
                 ∧ response_conversation_history response = appended)
  ∧ (¬ ("Italian" = "" ∨ is_Some (dict [
              ("Italian", "q2_italian_preference");
              ("Mexican", "q2_mexican_spice");
              ("Indian", "q2_indian_dish") ] !! "Italian")) →
     chat request = (history, inl invalid_state)).
Proof.
  refine (valid_answer_is_appended
            [ {| question_id := "q1_food_type"; answer := "Italian" |} ]
            {| question_id := "q1_food_type"; answer := "Italian" |}
            _ "Mexican" _ QUESTIONS_start _).
  - reflexivity.
  - apply (bool_decide_unpack _). vm_compute. reflexivity.
Defined.

(** C10.  The step that settles [next_question_id] never leaves anything but
    ["end"], the start identifier or a key of [QUESTIONS] in it, so the last
    branch of [chat], the 500 "Chatbot internal error", is never taken: every
    call ends in a Continue response, a Complete response, the InvalidAnswer
    400 or the CorruptHistory 400. *)
Theorem internal_error_is_unreachable (request : ChatRequest) :
  match determine_next_question (user_input request)
          (conversation_history request) with
  | (_, inr next) =>
      ∃ target, next = Some target
                ∧ (target = "end" ∨ target = "q1_food_type"
                   ∨ is_Some (QUESTIONS !! target))
  | (_, inl exn) => CorruptHistory exn ∨ InvalidAnswer exn
  end
  ∧ match chat request with
    | (history', inr response) =>
        response = Complete history'
        ∨ ∃ id config, QUESTIONS !! id = Some config
                       ∧ response = Continue id config history'
    | (_, inl exn) =>
        (CorruptHistory exn ∨ InvalidAnswer exn)
        ∧ status_code exn = 400%Z ∧ exn ≠ internal_error
    end.
Proof.
  split.
  - pose proof (determine_outcome (user_input request)
                  (conversation_history request)) as Hdet.
    destruct (determine_next_question _ _) as [history' [exn|next]].
    + tauto.
    + destruct Hdet as (target & -> & [-> | Hknown]); eauto 6.
  - pose proof (chat_outcome request) as Hchat.
    destruct (chat request) as [history' [exn|response]]; [| done].
    destruct Hchat as [_ Hexn]. split; [done |].
    destruct Hexn as [-> | (asked & submitted & expected & ->)]; done.
Qed.

(** ** The summary of a history *)

Lemma summary_of_snoc history entry :
  summary_of (history ++ [entry])
  = <[question_id entry := answer entry]> (summary_of history).
Proof. unfold summary_of, dict. by rewrite fmap_app, foldl_app. Qed.

(** The summary maps a question identifier to the answer of the last entry
    that names it. *)
Lemma summary_of_lookup history id :
  summary_of history !! id
  = answer <$> last (filter (fun entry => question_id entry = id) history).
Proof.
  induction history as [|entry history IH] using rev_ind; [done |].
  rewrite summary_of_snoc, filter_app.
  destruct (decide (question_id entry = id)) as [<- | Hne].
  - rewrite lookup_insert_eq, filter_cons_True by done.
    by rewrite filter_nil, last_snoc.
  - rewrite lookup_insert_ne, filter_cons_False by done.
    by rewrite filter_nil, app_nil_r.
Qed.

Lemma summary_of_dom history :
  dom (summary_of history) = list_to_set (question_id <$> history).
Proof.
  induction history as [|entry history IH] using rev_ind; [done |].
  rewrite summary_of_snoc, dom_insert_L, IH, fmap_app, list_to_set_app_L.
  cbn [fmap list_fmap list_to_set].
  by rewrite (right_id_L ∅ (∪)), (comm_L (∪)).
Qed.

Lemma size_list_to_set_le (ids : list string) :
  size (list_to_set ids : gset string) ≤ length ids.
Proof.
  induction ids as [|id ids IH]; [done |]. cbn [list_to_set length].
  destruct (decide (id ∈ ids)) as [Hin | Hnot].
  - rewrite subseteq_union_1_L; [lia |].
    by apply singleton_subseteq_l, elem_of_list_to_set.
  - rewrite size_union, size_singleton; [lia |].
    by apply disjoint_singleton_l; rewrite elem_of_list_to_set.
Qed.

Lemma size_list_to_set_NoDup (ids : list string) :
  size (list_to_set ids : gset string) = length ids ↔ NoDup ids.
Proof.
  split; [| apply size_list_to_set].
  induction ids as [|id ids IH]; [constructor |]. cbn [list_to_set length].
  intros Hsize. destruct (decide (id ∈ ids)) as [Hin | Hnot].
  - rewrite subseteq_union_1_L in Hsize
      by by apply singleton_subseteq_l, elem_of_list_to_set.
    pose proof (size_list_to_set_le ids). lia.
  - rewrite size_union, size_singleton in Hsize
      by by apply disjoint_singleton_l; rewrite elem_of_list_to_set.
    constructor; [done |]. apply IH. lia.
Qed.

Lemma summary_of_size history :
  size (summary_of history) = length history
  ↔ NoDup (question_id <$> history).
Proof.
  by rewrite <- size_dom, summary_of_dom, <- size_list_to_set_NoDup, length_fmap.
Qed.

Lemma summary_of_NoDup history entry :
  NoDup (question_id <$> history) →
  entry ∈ history →
  summary_of history !! question_id entry = Some (answer entry).
Proof.
  induction history as [|last_entry history IH] using rev_ind;
    [by intros _ ?%elem_of_nil |].
  rewrite fmap_app, NoDup_app, summary_of_snoc.
  intros (Hnodup & Hfresh & _) [Hin | ->%list_elem_of_singleton]%elem_of_app.
  - rewrite lookup_insert_ne; [by apply IH |].
    intros Heq. apply (Hfresh (question_id entry)).
    + by apply list_elem_of_fmap_2.
    + rewrite <- Heq. by apply list_elem_of_fmap_2, list_elem_of_singleton.
  - apply lookup_insert_eq.
Qed.

Lemma duplicate_question_collapses_summary :
  let request :=
    {| user_input := Some "Biryani";
       conversation_history :=
         [ {| question_id := "q2_indian_dish"; answer := "Curry" |} ] |} in
  let final :=
    [ {| question_id := "q2_indian_dish"; answer := "Curry" |};
      {| question_id := "q2_indian_dish"; answer := "Biryani" |} ] in
  chat request
  = (final,
     inr {| message := summary_message;
            response_question_id := None;
            response_options := None;
            response_conversation_history := final;
            is_conversation_complete := true;
            final_summary := Some {[ "q2_indian_dish" := "Biryani" ]} |})
  ∧ size ({[ "q2_indian_dish" := "Biryani" ]} : gmap string string) = 1
  ∧ length final = 2
  ∧ ({[ "q2_indian_dish" := "Biryani" ]} : gmap string string) !! "q2_indian_dish"
    ≠ Some "Curry".
Proof. repeat split; vm_compute; (reflexivity || discriminate). Qed.

(** C3, as the code has it.  Whenever [chat] returns a Complete response,
    [final_summary] is keyed by the question identifiers of the final history
    and by nothing else, and maps each of them to the answer of the last
    entry that names it; it never has more entries than the history, and it
    has as many, one per entry with that entry's question and answer,
    exactly when no question identifier occurs twice in the final history. *)
Theorem summary_keeps_last_answers
    (request : ChatRequest) (history' : History) (response : ChatResponse) :
  chat request = (history', inr response) →
  is_conversation_complete response = true →
  response_conversation_history response = history'
  ∧ ∃ summary,
      final_summary response = Some summary
      ∧ dom summary = list_to_set (question_id <$> history')
      ∧ (∀ id, summary !! id
               = answer <$> last (filter (fun entry => question_id entry = id)
                                         history'))
      ∧ size summary ≤ length history'
      ∧ (size summary = length history' ↔ NoDup (question_id <$> history'))
      ∧ (NoDup (question_id <$> history') →
         ∀ entry, entry ∈ history' →
                  summary !! question_id entry = Some (answer entry)).
Proof.
  intros Hchat Hcomplete. pose proof (chat_outcome request) as Hshape.
  rewrite Hchat in Hshape.
  destruct Hshape as [-> | (id & config & _ & ->)]; [| discriminate Hcomplete].
  split; [done |]. exists (summary_of history'). split; [done |].
  split; [apply summary_of_dom |]. split; [apply summary_of_lookup |].
  split; [| split; [apply summary_of_size |]];
    [| intros Hnodup entry; by apply summary_of_NoDup].
  rewrite <- size_dom, summary_of_dom, <- (length_fmap question_id).
  apply size_list_to_set_le.
Qed.

Lemma summary_keeps_last_answers_witness :
  response_conversation_history (Complete scenario4_history) = scenario4_history
  ∧ ∃ summary,
      final_summary (Complete scenario4_history) = Some summary
      ∧ dom summary = list_to_set (question_id <$> scenario4_history)
      ∧ (∀ id, summary !! id
               = answer <$> last (filter (fun entry => question_id entry = id)
                                         scenario4_history))
      ∧ size summary ≤ length scenario4_history
      ∧ (size summary = length scenario4_history
         ↔ NoDup (question_id <$> scenario4_history))
      ∧ (NoDup (question_id <$> scenario4_history) →
         ∀ entry, entry ∈ scenario4_history →
                  summary !! question_id entry = Some (answer entry)).
Proof.
  apply (summary_keeps_last_answers
           {| user_input := None; conversation_history := scenario4_history |}
           scenario4_history (Complete scenario4_history)).
  - vm_compute. reflexivity.
  - reflexivity.
Defined.

(** ** The graph *)

(** C8.  For every question of [QUESTIONS], the keys of its
    [next_question_map] are exactly its option labels, and every target of
    the map is the terminal marker ["end"] or the identifier of a question of
    [QUESTIONS]. *)
Theorem graph_is_well_formed (id : string) (config : QuestionConfig) :
  QUESTIONS !! id = Some config →
  dom (next_question_map config) = list_to_set (options config)
  ∧ (∀ label, label ∈ options config
              ↔ is_Some (next_question_map config !! label))
  ∧ (∀ label target, next_question_map config !! label = Some target →
                     target = "end" ∨ is_Some (QUESTIONS !! target)).
Proof.
  intros Hid. split; [| split].
  - by destruct (QUESTIONS_checked id config Hid).
  - intros label. by eapply option_has_transition.
  - intros label target. by apply transition_target_known with id.
Qed.

Lemma graph_is_well_formed_witness :
  let config :=
    {| question := "What kind of food are you in the mood for?";
       options := ["Italian"; "Mexican"; "Indian"];
       next_question_map := dict [
         ("Italian", "q2_italian_preference");
         ("Mexican", "q2_mexican_spice");
         ("Indian", "q2_indian_dish") ] |} in
  dom (next_question_map config) = list_to_set (options config)
  ∧ (∀ label, label ∈ options config
              ↔ is_Some (next_question_map config !! label))
  ∧ (∀ label target, next_question_map config !! label = Some target →
                     target = "end" ∨ is_Some (QUESTIONS !! target)).
Proof.
  apply (graph_is_well_formed "q1_food_type"). vm_compute. reflexivity.
Defined.

(** ** Paths from the start question *)

Lemma resolve_next_Some id label next :
  resolve_next id label = Some next →
  ∃ config, QUESTIONS !! id = Some config
            ∧ label ∈ options config
            ∧ next_question_map config !! label = Some next.
Proof.
  unfold resolve_next. destruct (QUESTIONS !! id) as [config|]; [| done].
  cbn. case_bool_decide; [| done]. eauto.
Qed.

Lemma resolve_next_option id config label :
  QUESTIONS !! id = Some config →
  label ∈ options config →
  is_Some (resolve_next id label).
Proof.
  intros Hid Hin. unfold resolve_next. rewrite Hid. cbn.
  rewrite bool_decide_eq_true_2 by done.
  by apply (option_has_transition id).
Qed.

Lemma follow_snoc id labels label :
  follow id (labels ++ [label])
  = follow id labels ≫= fun reached => resolve_next reached label.
Proof.
  revert id. induction labels as [|first labels IH]; intros id; cbn.
  - by destruct (resolve_next id label).
  - destruct (resolve_next id first) as [next|]; cbn; [apply IH | done].
Qed.

(** Every step goes down, so a path is no longer than the height it starts
    from. *)
Lemma follow_descends labels : ∀ id reached,
  follow id labels = Some reached →
  height reached + length labels ≤ height id.
Proof.
  induction labels as [|label labels IH]; intros id reached; cbn.
  - intros [= ->]. lia.
  - destruct (resolve_next id label) as [next|] eqn:Hstep; [| done]. cbn.
    intros Hrest%IH.
    apply resolve_next_Some in Hstep as (config & Hid & _ & Hnext).
    pose proof (transition_descends _ _ _ _ Hid Hnext). lia.
Qed.

Lemma follow_known labels : ∀ id reached,
  known_target id →
  follow id labels = Some reached →
  known_target reached.
Proof.
  induction labels as [|label labels IH]; intros id reached Hknown; cbn.
  - by intros [= <-].
  - destruct (resolve_next id label) as [next|] eqn:Hstep; [| done]. cbn.
    apply IH.
    apply resolve_next_Some in Hstep as (config & Hid & _ & Hnext).
    by eapply transition_target_known.
Qed.

Lemma height_known_zero id : known_target id → height id = 0 → id = "end".
Proof.
  intros [-> | [config Hid]]; [done |]. intros Hzero.
  pose proof (QUESTIONS_have_options id config Hid) as Hopts.
  destruct (options config) as [|label rest] eqn:Hoptions; [done |].
  destruct (proj1 (option_has_transition id config label Hid)) as [next Hnext].
  { rewrite Hoptions. left. }
  pose proof (transition_descends _ _ _ _ Hid Hnext). lia.
Qed.

(** C9.  Every path that starts at q1_food_type and follows valid options
    has at most three steps; wherever it stands, it stands on ["end"] or on a
    question that has options, each of which leads one step further; no path
    from the node it stands on comes back to that node; and after three steps
    it stands on ["end"]. *)
Theorem every_path_reaches_end (labels : list string) (reached : string) :
  follow "q1_food_type" labels = Some reached →
  length labels ≤ 3
  ∧ (reached = "end"
     ∨ ∃ config, QUESTIONS !! reached = Some config
                 ∧ options config ≠ []
                 ∧ ∀ label, label ∈ options config →
                            is_Some (follow "q1_food_type" (labels ++ [label])))
  ∧ (∀ more, more ≠ [] → follow reached more ≠ Some reached)
  ∧ (length labels = 3 → reached = "end").
Proof.
  intros Hpath.
  pose proof (follow_descends _ _ _ Hpath) as Hheight.
  change (height "q1_food_type") with 3 in Hheight.
  assert (Hknown : known_target reached).
  { apply (follow_known labels "q1_food_type"); [| done].
    right. eexists. exact QUESTIONS_start. }
  split; [lia |]. split; [| split].
  - destruct Hknown as [-> | [config Hid]]; [by left | right].
    exists config. split; [done |].
    split; [by apply (QUESTIONS_have_options reached) |].
    intros label Hin. rewrite follow_snoc, Hpath. cbn.
    by apply (resolve_next_option reached config).
  - intros more Hmore Hcycle. apply follow_descends in Hcycle.
    destruct more; [done |]. cbn in Hcycle. lia.
  - intros Hthree. apply height_known_zero; [done | lia].
Qed.

Lemma every_path_reaches_end_witness :
  let labels := ["Italian"; "Pizza"; "Mushrooms"] in
  length labels ≤ 3
  ∧ ("end" = "end"
     ∨ ∃ config, QUESTIONS !! "end" = Some config
                 ∧ options config ≠ []
                 ∧ ∀ label, label ∈ options config →
                            is_Some (follow "q1_food_type" (labels ++ [label])))
  ∧ (∀ more, more ≠ [] → follow "end" more ≠ Some "end")
  ∧ (length labels = 3 → "end" = "end").
Proof.
  apply (every_path_reaches_end ["Italian"; "Pizza"; "Mushrooms"] "end").
  vm_compute. reflexivity.
Defined.

(** * Further properties of the handler and of the graph *)

(** ** More facts about [QUESTIONS], by evaluation *)

Lemma QUESTIONS_no_shortcut : map_Forall no_shortcut QUESTIONS.
Proof. apply (bool_decide_unpack _). vm_compute. reflexivity. Qed.

Lemma QUESTIONS_labels_proper :
  map_Forall (fun _ config => labels_proper config) QUESTIONS.
Proof. apply (bool_decide_unpack _). vm_compute. reflexivity. Qed.

Lemma QUESTIONS_keys :
  dom QUESTIONS
  = list_to_set ["q1_food_type"; "q2_italian_preference"; "q2_mexican_spice";
                 "q2_indian_dish"; "q3_pasta_sauce"; "q3_pizza_toppings";
                 "q3_mexican_dish"].
Proof. apply (bool_decide_unpack _). vm_compute. reflexivity. Qed.

(** A transition key is an option, hence not empty. *)
Lemma transition_key_not_empty id config label :
  QUESTIONS !! id = Some config →
  is_Some (next_question_map config !! label) →
  label ≠ "".
Proof.
  intros Hid Hkey%(option_has_transition id config label Hid) ->.
  by destruct (QUESTIONS_labels_proper id config Hid) as [_ Hempty].
Qed.

(** ** Calls without a submitted answer *)

Lemma chat_no_input_step history entry config target :
  last_item history = Some entry →
  QUESTIONS !! question_id entry = Some config →
  next_question_map config !! answer entry = Some target →
  chat {| user_input := None; conversation_history := history |}
  = prepare_response (Some target) history.
Proof.
  intros Hlast Hid Hnext. unfold chat, chat_body, mbind, handler_bind.
  cbn [user_input conversation_history].
  rewrite (determine_no_input _ _ Hlast _ Hid). unfold from_last_entry.
  assert (truthy (answer entry) = true) as ->.
  { apply truthy_true. by eapply transition_key_not_empty. }
  by rewrite Hnext.
Qed.

(** X1.  Without a submitted answer, a history whose last entry records an
    option of its question is answered from that entry alone: when the
    option leads to ["end"] the call returns the Complete response, otherwise
    it asks the question the option leads to; either way the history is
    returned as it came and the request's list is not touched. *)
Theorem echoed_history_advances
    (history : History) (entry : ConversationEntry) (target : string) :
  last_item history = Some entry →
  resolve_next (question_id entry) (answer entry) = Some target →
  let request := {| user_input := None; conversation_history := history |} in
  (target = "end" ∧ chat request = (history, inr (Complete history)))
  ∨ (∃ config, QUESTIONS !! target = Some config
               ∧ chat request = (history, inr (Continue target config history))).
Proof.
  intros Hlast (config & Hid & _ & Hnext)%resolve_next_Some request.
  unfold request. rewrite (chat_no_input_step _ _ _ _ Hlast Hid Hnext).
  destruct (transition_target_known _ _ _ _ Hid Hnext) as [-> | [next Hnextid]].
  - left. split; [done | apply prepare_end].
  - right. exists next. split; [done | by apply prepare_question].
Qed.

Lemma echoed_history_advances_witness :
  let history := [ {| question_id := "q1_food_type"; answer := "Italian" |} ] in
  let request := {| user_input := None; conversation_history := history |} in
  ("q2_italian_preference" = "end"
   ∧ chat request = (history, inr (Complete history)))
  ∨ (∃ config, QUESTIONS !! "q2_italian_preference" = Some config
               ∧ chat request
                 = (history, inr (Continue "q2_italian_preference" config history))).
Proof.
  apply (echoed_history_advances
           [ {| question_id := "q1_food_type"; answer := "Italian" |} ]
           {| question_id := "q1_food_type"; answer := "Italian" |}
           "q2_italian_preference").
  - reflexivity.
  - vm_compute. reflexivity.
Defined.

(** What the first half of [chat] does without a submitted answer. *)
Lemma determine_no_input_outcome history :
  ∃ outcome,
    determine_next_question None history = (history, outcome)
    ∧ match outcome with
      | inl exn => exn = invalid_state
      | inr next => ∃ target, next = Some target ∧ known_target target
      end.
Proof.
  destruct (last_item history) as [entry|] eqn:Hlast.
  - destruct (QUESTIONS !! question_id entry) as [config|] eqn:Hid.
    + rewrite (determine_no_input _ _ Hlast _ Hid).
      destruct (from_last_entry entry config) as [next|] eqn:Hnext.
      * eexists. split; [done |]. exists next. split; [done |].
        by eapply from_last_entry_known.
      * by eexists.
    + rewrite (determine_unknown _ _ Hlast _ Hid). eexists. split; [done |].
      exists start_question_id. split; [done |].
      right. eexists. exact QUESTIONS_start.
  - apply last_None in Hlast as ->. rewrite determine_start.
    eexists. split; [done |]. exists start_question_id. split; [done |].
    right. eexists. exact QUESTIONS_start.
Qed.

Lemma chat_no_input_outcome history :
  match chat {| user_input := None; conversation_history := history |} with
  | (history', inr response) =>
      history' = history ∧ response_conversation_history response = history
  | (history', inl exn) => history' = history ∧ exn = invalid_state
  end.
Proof.
  unfold chat, chat_body, mbind, handler_bind.
  cbn [user_input conversation_history].
  destruct (determine_no_input_outcome history) as ([exn|next] & -> & Hout).
  - by subst exn.
  - destruct Hout as (target & -> & Hknown).
    destruct (prepare_known target history Hknown) as (response & -> & Hshape).
    split; [done |]. by destruct Hshape as [-> | (? & _ & ->)].
Qed.

(** X2.  Without a submitted answer [chat] never touches the history and
    never raises the invalid-input 400: it either returns a response that
    carries the history as it came, or raises the invalid-state 400. *)
Theorem no_input_leaves_history (history : History) :
  match chat {| user_input := None; conversation_history := history |} with
  | (history', inr response) =>
      history' = history ∧ response_conversation_history response = history
  | (history', inl exn) =>
      history' = history ∧ exn = invalid_state ∧ ¬ InvalidAnswer exn
  end.
Proof.
  pose proof (chat_no_input_outcome history) as Hout.
  destruct (chat _) as [history' [exn|response]]; [| done].
  destruct Hout as [-> ->]. split; [done |]. split; [done |].
  intros (asked & submitted & expected & H). symmetry in H.
  exact (invalid_input_is_not_invalid_state _ _ _ H).
Qed.

(** ** Calls with a submitted answer *)

(** What the first half of [chat] does with a submitted answer: it raises
    and leaves the history alone, or keeps the start question for a history
    that is empty or ends in an unknown question, or appends the answer to
    the question of the last entry and follows its transition. *)
Lemma determine_submitted_outcome submitted history :
  match determine_next_question (Some submitted) history with
  | (history', inl exn) =>
      history' = history ∧ (CorruptHistory exn ∨ InvalidAnswer exn)
  | (history', inr next) =>
      (history' = history ∧ next = Some start_question_id
       ∧ (history = []
          ∨ ∃ entry, last_item history = Some entry
                     ∧ QUESTIONS !! question_id entry = None))
      ∨ (∃ entry config target,
           last_item history = Some entry
           ∧ QUESTIONS !! question_id entry = Some config
           ∧ submitted ∈ options config
           ∧ next_question_map config !! submitted = Some target
           ∧ next = Some target
           ∧ history' = history ++ [ {| question_id := question_id entry;
                                        answer := submitted |} ])
  end.
Proof.
  destruct (last_item history) as [entry|] eqn:Hlast.
  - destruct (QUESTIONS !! question_id entry) as [config|] eqn:Hid.
    + destruct (from_last_entry entry config) as [next|] eqn:Hnext.
      * destruct (decide (submitted ∈ options config)) as [Hin|Hnot].
        -- rewrite (determine_valid _ _ Hlast _ Hid); [| by eauto | done].
           destruct (proj1 (option_has_transition _ _ _ Hid) Hin)
             as [target Htarget].
           right. exists entry, config, target. by rewrite Htarget.
        -- rewrite (determine_invalid _ _ Hlast _ Hid); [| by eauto | done].
           split; [done |]. right. by repeat eexists.
      * apply from_last_entry_None in Hnext as [Hanswer Hnone].
        rewrite (determine_no_transition _ _ Hlast _ Hid); [| done | done].
        split; [done |]. by left.
    + rewrite (determine_unknown _ _ Hlast _ Hid).
      left. split; [done |]. split; [done |]. right. by exists entry.
  - apply last_None in Hlast as ->. rewrite determine_start.
    left. split; [done |]. split; [done |]. by left.
Qed.

Lemma chat_submitted_outcome submitted history :
  match chat {| user_input := Some submitted;
                conversation_history := history |} with
  | (history', inl exn) => history' = history
  | (history', inr response) =>
      (history' = history
       ∧ ∃ config, response = Continue start_question_id config history)
      ∨ (∃ entry config target,
           last_item history = Some entry
           ∧ QUESTIONS !! question_id entry = Some config
           ∧ submitted ∈ options config
           ∧ next_question_map config !! submitted = Some target
           ∧ history' = history ++ [ {| question_id := question_id entry;
                                        answer := submitted |} ]
           ∧ (target = "end" ∧ response = Complete history'
              ∨ ∃ next_config, QUESTIONS !! target = Some next_config
                               ∧ response = Continue target next_config history'))
  end.
Proof.
  unfold chat, chat_body, mbind, handler_bind.
  cbn [user_input conversation_history].
  pose proof (determine_submitted_outcome submitted history) as Hdet.
  destruct (determine_next_question _ _) as [history' [exn|next]]; [tauto |].
  destruct Hdet as [(-> & -> & _) | Hdet].
  - rewrite (prepare_question _ _ _ QUESTIONS_start). left. eauto.
  - destruct Hdet as (entry & config & target & Hlast & Hid & Hin & Hnext & -> & ->).
    destruct (transition_target_known _ _ _ _ Hid Hnext) as [-> | [next Hnextid]].
    + rewrite prepare_end. right. exists entry, config, "end". eauto 10.
    + rewrite (prepare_question _ _ _ Hnextid).
      right. exists entry, config, target. eauto 10.
Qed.

(** X3.  A valid submitted answer alone decides what comes next.  When the
    last entry names a question of the graph, its recorded answer is empty or
    a transition key, and the submitted answer is one of the question's
    options, the transition for the SUBMITTED answer is followed: the call
    returns Complete when it leads to ["end"] and asks the question it leads
    to otherwise, on the history extended by the new entry.  The transition
    of the recorded answer plays no part. *)
Theorem submitted_answer_decides
    (history : History) (entry : ConversationEntry) (config : QuestionConfig)
    (submitted : string) :
  last_item history = Some entry →
  QUESTIONS !! question_id entry = Some config →
  answer entry = "" ∨ is_Some (next_question_map config !! answer entry) →
  submitted ∈ options config →
  let request := {| user_input := Some submitted;
                    conversation_history := history |} in
  let appended :=
    history ++ [ {| question_id := question_id entry; answer := submitted |} ] in
  ∃ target,
    resolve_next (question_id entry) submitted = Some target
    ∧ (target = "end" ∧ chat request = (appended, inr (Complete appended))
       ∨ ∃ next_config,
           QUESTIONS !! target = Some next_config
           ∧ chat request = (appended, inr (Continue target next_config appended))).
Proof.
  intros Hlast Hid Hanswer%from_last_entry_is_Some Hin request appended.
  destruct (proj1 (option_has_transition _ _ _ Hid) Hin) as [target Hnext].
  exists target. split.
  { unfold resolve_next. rewrite Hid. cbn. by rewrite bool_decide_eq_true_2. }
  unfold request, chat, chat_body, mbind, handler_bind.
  cbn [user_input conversation_history].
  rewrite (determine_valid _ _ Hlast _ Hid _ Hanswer Hin), Hnext.
  fold appended.
  destruct (transition_target_known _ _ _ _ Hid Hnext) as [-> | [next Hnextid]].
  - left. split; [done | apply prepare_end].
  - right. exists next. split; [done | by apply prepare_question].
Qed.

Lemma submitted_answer_decides_witness :
  let history := [ {| question_id := "q2_indian_dish"; answer := "Curry" |} ] in
  let request := {| user_input := Some "Biryani";
                    conversation_history := history |} in
  let appended :=
    history ++ [ {| question_id := "q2_indian_dish"; answer := "Biryani" |} ] in
  ∃ target,
    resolve_next "q2_indian_dish" "Biryani" = Some target
    ∧ (target = "end" ∧ chat request = (appended, inr (Complete appended))
       ∨ ∃ next_config,
           QUESTIONS !! target = Some next_config
           ∧ chat request = (appended, inr (Continue target next_config appended))).
Proof.
  refine (submitted_answer_decides
            [ {| question_id := "q2_indian_dish"; answer := "Curry" |} ]
            {| question_id := "q2_indian_dish"; answer := "Curry" |}
            {| question := "Great choice! Which Indian dish sounds good?";
               options := ["Curry"; "Biryani"; "Naan with Dal"];
               next_question_map := dict [
                 ("Curry", "end");
                 ("Biryani", "end");
                 ("Naan with Dal", "end") ] |}
            "Biryani" _ _ _ _).
  - reflexivity.
  - vm_compute. reflexivity.
  - right. vm_compute. eauto.
  - apply (bool_decide_unpack _). vm_compute. reflexivity.
Defined.

(** X4.  [chat] only ever appends.  When it raises, the request's history
    list is as it came; when it returns, the response carries the very
    content the list now has, which is the history as it came or that
    history followed by one entry: the question of its last entry with the
    submitted answer.  No entry is removed, reordered or rewritten. *)
Theorem history_only_grows_by_one (request : ChatRequest) :
  match chat request with
  | (history', inl exn) => history' = conversation_history request
  | (history', inr response) =>
      response_conversation_history response = history'
      ∧ (history' = conversation_history request
         ∨ ∃ entry submitted,
             last_item (conversation_history request) = Some entry
             ∧ user_input request = Some submitted
             ∧ history' = conversation_history request
                          ++ [ {| question_id := question_id entry;
                                  answer := submitted |} ])
  end.
Proof.
  destruct request as [[submitted|] history]; cbn [user_input conversation_history].
  - pose proof (chat_submitted_outcome submitted history) as Hout.
    destruct (chat _) as [history' [exn|response]]; [done |].
    destruct Hout as [(-> & config & ->) | Hout]; [split; [done | by left] |].
    destruct Hout as (entry & config & target & Hlast & _ & _ & _ & -> & Hshape).
    split; [| right; by exists entry, submitted].
    by destruct Hshape as [[_ ->] | (? & _ & ->)].
  - pose proof (chat_no_input_outcome history) as Hout.
    destruct (chat _) as [history' [exn|response]]; [tauto |].
    destruct Hout as [-> ->]. split; [done | by left].
Qed.

(** X5.  The question named by the last entry of the history is the same
    after the call as before it, whatever the call does: a submitted answer is
    recorded under that question again, so calls with submitted answers never
    move the history on to another question. *)
Theorem last_question_is_kept (request : ChatRequest) (entry : ConversationEntry) :
  last_item (conversation_history request) = Some entry →
  ∃ entry', last_item (chat request).1 = Some entry'
            ∧ question_id entry' = question_id entry.
Proof.
  intros Hlast. destruct request as [[submitted|] history];
    cbn [user_input conversation_history] in *.
  - pose proof (chat_submitted_outcome submitted history) as Hout.
    destruct (chat _) as [history' [exn|response]]; cbn [fst].
    + subst history'. eauto.
    + destruct Hout as [(-> & _) | Hout]; [eauto |].
      destruct Hout as (entry0 & _ & _ & Hlast0 & _ & _ & _ & -> & _).
      eexists. split; [apply last_snoc |]. cbn. congruence.
  - pose proof (chat_no_input_outcome history) as Hout.
    destruct (chat _) as [history' [exn|response]]; cbn [fst];
      destruct Hout as [-> _]; eauto.
Qed.

Lemma last_question_is_kept_witness :
  ∃ entry',
    last_item
      (chat {| user_input := Some "Mexican";
               conversation_history :=
                 [ {| question_id := "q1_food_type"; answer := "Italian" |} ] |}).1
    = Some entry'
    ∧ question_id entry'
      = question_id {| question_id := "q1_food_type"; answer := "Italian" |}.
Proof.
  apply (last_question_is_kept
           {| user_input := Some "Mexican";
              conversation_history :=
                [ {| question_id := "q1_food_type"; answer := "Italian" |} ] |}).
  reflexivity.
Defined.



(** ** Histories that walk the graph *)

Lemma resolve_next_descends id label next :
  resolve_next id label = Some next → height next < height id.
Proof.
  intros (config & Hid & _ & Hnext)%resolve_next_Some.
  by eapply transition_descends.
Qed.

(** Along a walk the heights go down: every entry names a question no higher
    than the start and strictly higher than where the walk ends. *)
Lemma replay_heights history : ∀ id reached,
  replay id history = Some reached →
  height reached ≤ height id
  ∧ ∀ entry, entry ∈ history →
             height reached < height (question_id entry)
             ∧ height (question_id entry) ≤ height id.
Proof.
  induction history as [|first history IH]; intros id reached; cbn [replay].
  - intros [= ->]. split; [done |]. by intros entry ?%elem_of_nil.
  - case_bool_decide as Hfirst; [| done].
    destruct (resolve_next id (answer first)) as [next|] eqn:Hstep; [| done].
    cbn. intros [Hend Hrest]%IH. apply resolve_next_descends in Hstep.
    split; [lia |]. intros entry [-> | Hin]%elem_of_cons.
    + rewrite Hfirst. lia.
    + destruct (Hrest entry Hin). lia.
Qed.

Lemma replay_NoDup history : ∀ id reached,
  replay id history = Some reached →
  NoDup (question_id <$> history).
Proof.
  induction history as [|first history IH]; intros id reached; cbn [replay].
  - intros _. constructor.
  - case_bool_decide as Hfirst; [| done].
    destruct (resolve_next id (answer first)) as [next|] eqn:Hstep; [| done].
    cbn. intros Hrest. apply resolve_next_descends in Hstep.
    constructor; [| by eapply IH].
    intros (entry & Heq & Hin)%list_elem_of_fmap.
    destruct (replay_heights _ _ _ Hrest) as [_ Hbound].
    destruct (Hbound entry Hin). rewrite Hfirst, Heq in *. lia.
Qed.

Lemma replay_length history : ∀ id reached,
  replay id history = Some reached →
  height reached + length history ≤ height id.
Proof.
  induction history as [|first history IH]; intros id reached; cbn [replay].
  - intros [= ->]. cbn. lia.
  - case_bool_decide as Hfirst; [| done].
    destruct (resolve_next id (answer first)) as [next|] eqn:Hstep; [| done].
    cbn. intros Hrest%IH. apply resolve_next_descends in Hstep. lia.
Qed.

Lemma resolve_next_no_shortcut id label next :
  resolve_next id label = Some next → shortest id ≤ S (shortest next).
Proof.
  intros (config & Hid & _ & Hnext)%resolve_next_Some.
  exact (QUESTIONS_no_shortcut id config Hid label next Hnext).
Qed.

Lemma replay_no_shortcut history : ∀ id reached,
  replay id history = Some reached →
  shortest id ≤ shortest reached + length history.
Proof.
  induction history as [|first history IH]; intros id reached; cbn [replay].
  - intros [= ->]. lia.
  - case_bool_decide as Hfirst; [| done].
    destruct (resolve_next id (answer first)) as [next|] eqn:Hstep; [| done].
    cbn. intros Hrest%IH. apply resolve_next_no_shortcut in Hstep. lia.
Qed.

(** A walk that is not empty ends with the step its last entry records. *)
Lemma replay_last history : ∀ id reached,
  replay id history = Some reached →
  history ≠ [] →
  ∃ entry, last_item history = Some entry
           ∧ resolve_next (question_id entry) (answer entry) = Some reached.
Proof.
  induction history as [|first history IH]; intros id reached; [done |].
  cbn [replay]. case_bool_decide as Hfirst; [| done].
  destruct (resolve_next id (answer first)) as [next|] eqn:Hstep; [| done].
  cbn. intros Hrest _. destruct history as [|second history].
  - injection Hrest as <-. exists first. by rewrite Hfirst.
  - destruct (IH next reached Hrest) as (entry & Hlast & Hend); [done |].
    exists entry. split; [| done]. unfold last_item in *.
    by rewrite last_cons_cons.
Qed.

(** X7.  On a history that walks the graph from q1_food_type to ["end"],
    each entry answering the question the walk stands on with one of its
    options, a call without a submitted answer returns the Complete response
    with a full summary: as many entries as the history, each question mapped
    to its recorded answer.  Such a history has two or three entries. *)
Theorem walked_history_is_summarised (history : History) :
  replay "q1_food_type" history = Some "end" →
  chat {| user_input := None; conversation_history := history |}
  = (history, inr (Complete history))
  ∧ size (summary_of history) = length history
  ∧ (∀ entry, entry ∈ history →
              summary_of history !! question_id entry = Some (answer entry))
  ∧ 2 ≤ length history ≤ 3.
Proof.
  intros Hwalk.
  assert (history ≠ []) as Hne by (by intros ->).
  destruct (replay_last _ _ _ Hwalk Hne)
    as (entry & Hlast & (config & Hid & _ & Hnext)%resolve_next_Some).
  pose proof (replay_NoDup _ _ _ Hwalk) as Hnodup.
  split; [| split; [| split]].
  - rewrite (chat_no_input_step _ _ _ _ Hlast Hid Hnext). apply prepare_end.
  - by apply summary_of_size.
  - intros e He. by apply summary_of_NoDup.
  - pose proof (replay_length _ _ _ Hwalk) as Hlen.
    pose proof (replay_no_shortcut _ _ _ Hwalk) as Hshort.
    change (height "q1_food_type") with 3 in Hlen.
    change (shortest "q1_food_type") with 2 in Hshort.
    change (shortest "end") with 0 in Hshort. lia.
Qed.

Lemma walked_history_is_summarised_witness :
  chat {| user_input := None; conversation_history := scenario4_history |}
  = (scenario4_history, inr (Complete scenario4_history))
  ∧ size (summary_of scenario4_history) = length scenario4_history
  ∧ (∀ entry, entry ∈ scenario4_history →
              summary_of scenario4_history !! question_id entry
              = Some (answer entry))
  ∧ 2 ≤ length scenario4_history ≤ 3.
Proof.
  apply (walked_history_is_summarised scenario4_history).
  vm_compute. reflexivity.
Defined.

(** X8.  On a history that walks the graph from q1_food_type and has not
    reached ["end"], a call without a submitted answer asks the question the
    walk stands on, and that question was not asked before: it differs from
    the question of every entry, and no two entries name the same
    question. *)
Theorem walk_never_asks_twice (history : History) (target : string) :
  replay "q1_food_type" history = Some target →
  target ≠ "end" →
  ∃ config,
    QUESTIONS !! target = Some config
    ∧ chat {| user_input := None; conversation_history := history |}
      = (history, inr (Continue target config history))
    ∧ (target ∉ question_id <$> history)
    ∧ NoDup (question_id <$> history).
Proof.
  intros Hwalk Hnotend.
  assert (∃ config, QUESTIONS !! target = Some config
            ∧ chat {| user_input := None; conversation_history := history |}
              = (history, inr (Continue target config history)))
    as (config & Htarget & Hchat).
  { destruct history as [|first rest] eqn:Hhistory.
    - injection Hwalk as <-. eexists. split; [exact QUESTIONS_start |].
      unfold chat, chat_body, mbind, handler_bind.
      cbn [user_input conversation_history].
      rewrite determine_start. by apply prepare_question, QUESTIONS_start.
    - destruct (replay_last _ _ _ Hwalk)
        as (entry & Hlast & (config & Hid & _ & Hnext)%resolve_next_Some);
        [done |].
      rewrite (chat_no_input_step _ _ _ _ Hlast Hid Hnext).
      destruct (transition_target_known _ _ _ _ Hid Hnext) as [-> | [next Hnextid]];
        [done |].
      exists next. split; [done | by apply prepare_question]. }
  exists config. split; [done |]. split; [done |].
  split; [| by eapply replay_NoDup].
  intros (entry & -> & Hin)%list_elem_of_fmap.
  destruct (replay_heights _ _ _ Hwalk) as [_ Hbound].
  destruct (Hbound entry Hin). lia.
Qed.

Lemma walk_never_asks_twice_witness :
  let history := [ {| question_id := "q1_food_type"; answer := "Mexican" |};
                   {| question_id := "q2_mexican_spice"; answer := "Mild" |} ] in
  ∃ config,
    QUESTIONS !! "q3_mexican_dish" = Some config
    ∧ chat {| user_input := None; conversation_history := history |}
      = (history, inr (Continue "q3_mexican_dish" config history))
    ∧ ("q3_mexican_dish" ∉ question_id <$> history)
    ∧ NoDup (question_id <$> history).
Proof.
  apply (walk_never_asks_twice
           [ {| question_id := "q1_food_type"; answer := "Mexican" |};
             {| question_id := "q2_mexican_spice"; answer := "Mild" |} ]
           "q3_mexican_dish").
  - vm_compute. reflexivity.
  - discriminate.
Defined.

(** ** More on the graph *)

Lemma follow_no_shortcut labels : ∀ id reached,
  follow id labels = Some reached →
  shortest id ≤ shortest reached + length labels.
Proof.
  induction labels as [|label labels IH]; intros id reached; cbn.
  - intros [= ->]. lia.
  - destruct (resolve_next id label) as [next|] eqn:Hstep; [| done]. cbn.
    intros Hrest%IH. apply resolve_next_no_shortcut in Hstep. lia.
Qed.

(** X9.  Every question of [QUESTIONS] can be reached from q1_food_type by
    following valid options, in at most two steps: the graph has no question
    that is never asked. *)
Theorem every_question_is_reachable (id : string) (config : QuestionConfig) :
  QUESTIONS !! id = Some config →
  ∃ labels, follow "q1_food_type" labels = Some id ∧ length labels ≤ 2.
Proof.
  intros Hid.
  assert (id ∈ dom QUESTIONS) as Hdom by (apply elem_of_dom; eauto).
  rewrite QUESTIONS_keys, elem_of_list_to_set in Hdom.
  repeat (apply elem_of_cons in Hdom as [-> | Hdom]).
  - exists []. split; [vm_compute; reflexivity | cbn; lia].
  - exists ["Italian"]. split; [vm_compute; reflexivity | cbn; lia].
  - exists ["Mexican"]. split; [vm_compute; reflexivity | cbn; lia].
  - exists ["Indian"]. split; [vm_compute; reflexivity | cbn; lia].
  - exists ["Italian"; "Pasta"]. split; [vm_compute; reflexivity | cbn; lia].
  - exists ["Italian"; "Pizza"]. split; [vm_compute; reflexivity | cbn; lia].
  - exists ["Mexican"; "Spicy"]. split; [vm_compute; reflexivity | cbn; lia].
  - by apply elem_of_nil in Hdom.
Qed.

Lemma every_question_is_reachable_witness :
  ∃ labels, follow "q1_food_type" labels = Some "q3_mexican_dish"
            ∧ length labels ≤ 2.
Proof.
  refine (every_question_is_reachable "q3_mexican_dish"
            {| question := "What kind of Mexican dish are you thinking of?";
               options := ["Tacos"; "Burritos"; "Enchiladas"];
               next_question_map := dict [
                 ("Tacos", "end");
                 ("Burritos", "end");
                 ("Enchiladas", "end") ] |} _).
  vm_compute. reflexivity.
Defined.

(** X10.  No conversation is over after a single answer: a path of valid
    options from q1_food_type to ["end"] has two or three steps. *)
Theorem completion_takes_two_or_three (labels : list string) :
  follow "q1_food_type" labels = Some "end" →
  2 ≤ length labels ≤ 3.
Proof.
  intros Hpath.
  pose proof (follow_no_shortcut _ _ _ Hpath) as Hshort.
  pose proof (follow_descends _ _ _ Hpath) as Hlong.
  change (shortest "q1_food_type") with 2 in Hshort.
  change (shortest "end") with 0 in Hshort.
  change (height "q1_food_type") with 3 in Hlong. lia.
Qed.

Lemma completion_takes_two_or_three_witness :
  2 ≤ length ["Indian"; "Curry"] ≤ 3.
Proof.
  apply (completion_takes_two_or_three ["Indian"; "Curry"]).
  vm_compute. reflexivity.
Defined.

(** X11.  The option labels of every question are pairwise distinct and
    none of them is the empty string, and no question identifier is empty. *)
Theorem labels_are_distinct_and_not_empty (id : string) (config : QuestionConfig) :
  QUESTIONS !! id = Some config →
  NoDup (options config) ∧ ("" ∉ options config) ∧ id ≠ "" ∧ id ≠ "end".
Proof.
  intros Hid. destruct (QUESTIONS_labels_proper id config Hid) as [Hnodup Hempty].
  split; [done |]. split; [done |]. split.
  - intros ->. by rewrite QUESTIONS_empty_key in Hid.
  - intros ->. by rewrite QUESTIONS_end in Hid.
Qed.

Lemma labels_are_distinct_and_not_empty_witness :
  NoDup ["Pasta"; "Pizza"] ∧ ("" ∉ ["Pasta"; "Pizza"])
  ∧ "q2_italian_preference" ≠ "" ∧ "q2_italian_preference" ≠ "end".
Proof.
  refine (labels_are_distinct_and_not_empty "q2_italian_preference"
            {| question := "Do you prefer pasta or pizza?";
               options := ["Pasta"; "Pizza"];
               next_question_map := dict [
                 ("Pasta", "q3_pasta_sauce");
                 ("Pizza", "q3_pizza_toppings") ] |} _).
  vm_compute. reflexivity.
Defined.

(** ** Edge cases of the submitted answer *)


(** ** What [chat] reads of the history *)

(** The first half of [chat] looks at the last entry only: on two histories
    with the same last entry it appends the same entries and ends the same
    way. *)
Lemma determine_reads_last user_input history1 history2 :
  last_item history1 = last_item history2 →
  ∃ appended outcome,
    determine_next_question user_input history1 = (history1 ++ appended, outcome)
    ∧ determine_next_question user_input history2 = (history2 ++ appended, outcome).
Proof.
  intros Hsame. destruct (last_item history2) as [entry|] eqn:Hlast2.
  - rename Hsame into Hlast1.
    destruct (QUESTIONS !! question_id entry) as [config|] eqn:Hid.
    + destruct (from_last_entry entry config) as [next|] eqn:Hnext.
      * destruct user_input as [submitted|].
        -- destruct (decide (submitted ∈ options config)) as [Hin|Hnot].
           ++ rewrite (determine_valid _ _ Hlast1 _ Hid),
                (determine_valid _ _ Hlast2 _ Hid) by eauto.
              by eexists _, _.
           ++ rewrite (determine_invalid _ _ Hlast1 _ Hid),
                (determine_invalid _ _ Hlast2 _ Hid) by eauto.
              exists [], (inl (invalid_input (question config) submitted
                                 (options config))).
              by rewrite !app_nil_r.
        -- rewrite (determine_no_input _ _ Hlast1 _ Hid),
             (determine_no_input _ _ Hlast2 _ Hid), Hnext.
           exists [], (inr (Some next)). by rewrite !app_nil_r.
      * apply from_last_entry_None in Hnext as [Hanswer Hnone].
        rewrite (determine_no_transition _ _ Hlast1 _ Hid),
          (determine_no_transition _ _ Hlast2 _ Hid) by done.
        exists [], (inl invalid_state). by rewrite !app_nil_r.
    + rewrite (determine_unknown _ _ Hlast1 _ Hid),
        (determine_unknown _ _ Hlast2 _ Hid).
      exists [], (inr (Some start_question_id)). by rewrite !app_nil_r.
  - apply last_None in Hsame as ->. apply last_None in Hlast2 as ->.
    rewrite determine_start. exists [], (inr (Some start_question_id)). done.
Qed.

(** The response step puts the history into the response and its summary and
    into nothing else. *)
Lemma prepare_fields next history1 history2 :
  match (prepare_response next history1).2, (prepare_response next history2).2 with
  | inl exn1, inl exn2 => exn1 = exn2
  | inr response1, inr response2 =>
      message response1 = message response2
      ∧ response_question_id response1 = response_question_id response2
      ∧ response_options response1 = response_options response2
      ∧ is_conversation_complete response1 = is_conversation_complete response2
  | _, _ => False
  end.
Proof.
  unfold prepare_response, mbind, handler_bind, read_history, mret, handler_ret,
    raise.
  case_bool_decide; [done |].
  destruct next as [id|]; [| done].
  by destruct (QUESTIONS !! id).
Qed.

(** X13.  [chat] reads nothing of the history but its last entry.  Two
    requests with the same submitted answer whose histories end in the same
    entry (or are both empty) raise the same exception, or get responses with
    the same message, question, options and completion flag; the entries
    before the last one are not checked against the graph. *)
Theorem only_the_last_entry_is_read
    (submitted : option string) (history1 history2 : History) :
  last_item history1 = last_item history2 →
  match (chat {| user_input := submitted; conversation_history := history1 |}).2,
        (chat {| user_input := submitted; conversation_history := history2 |}).2
  with
  | inl exn1, inl exn2 => exn1 = exn2
  | inr response1, inr response2 =>
      message response1 = message response2
      ∧ response_question_id response1 = response_question_id response2
      ∧ response_options response1 = response_options response2
      ∧ is_conversation_complete response1 = is_conversation_complete response2
  | _, _ => False
  end.
Proof.
  intros Hsame. unfold chat, chat_body, mbind, handler_bind.
  cbn [user_input conversation_history].
  destruct (determine_reads_last submitted _ _ Hsame)
    as (appended & [exn|next] & -> & ->); [done |].
  apply (prepare_fields next).
Qed.

Lemma only_the_last_entry_is_read_witness :
  match (chat {| user_input := None;
                 conversation_history :=
                   [ {| question_id := "q1_food_type"; answer := "Italian" |} ] |}).2,
        (chat {| user_input := None;
                 conversation_history :=
                   [ {| question_id := "q9_dessert"; answer := "Cake" |};
                     {| question_id := "q1_food_type"; answer := "Italian" |} ] |}).2
  with
  | inl exn1, inl exn2 => exn1 = exn2
  | inr response1, inr response2 =>
      message response1 = message response2
      ∧ response_question_id response1 = response_question_id response2
      ∧ response_options response1 = response_options response2
      ∧ is_conversation_complete response1 = is_conversation_complete response2
  | _, _ => False
  end.
Proof.
  apply (only_the_last_entry_is_read None
           [ {| question_id := "q1_food_type"; answer := "Italian" |} ]
           [ {| question_id := "q9_dessert"; answer := "Cake" |};
             {| question_id := "q1_food_type"; answer := "Italian" |} ]).
  reflexivity.
Defined.

(** ** Answering the question that was asked *)

(** X14.  Every question [chat] asks can be answered by extending the
    history.  When a response asks question [id] with options [offered], the
    history it carries followed by an entry that records any offered option
    under [id], sent back without a submitted answer, is never rejected: the
    call follows that option's transition and returns Complete when it leads
    to ["end"] and the next question otherwise. *)
Theorem asked_question_can_be_answered
    (request : ChatRequest) (history' : History) (response : ChatResponse)
    (id label : string) (offered : list string) :
  chat request = (history', inr response) →
  response_question_id response = Some id →
  response_options response = Some offered →
  label ∈ offered →
  let answered :=
    response_conversation_history response
    ++ [ {| question_id := id; answer := label |} ] in
  let reply := chat {| user_input := None; conversation_history := answered |} in
  ∃ target,
    resolve_next id label = Some target
    ∧ (target = "end" ∧ reply = (answered, inr (Complete answered))
       ∨ ∃ config, QUESTIONS !! target = Some config
                   ∧ reply = (answered, inr (Continue target config answered))).
Proof.
  intros Hchat Hasked Hoffered Hin answered reply.
  pose proof (chat_outcome request) as Hshape. rewrite Hchat in Hshape.
  destruct Hshape as [-> | (id' & config & Hid & ->)]; [discriminate Hasked |].
  cbn in Hasked, Hoffered, answered.
  injection Hasked as ->. injection Hoffered as <-.
  destruct (proj1 (option_has_transition _ _ _ Hid) Hin) as [target Hnext].
  exists target. split.
  { unfold resolve_next. rewrite Hid. cbn. by rewrite bool_decide_eq_true_2. }
  unfold reply.
  rewrite (chat_no_input_step answered
             {| question_id := id; answer := label |} config target);
    [| apply last_snoc | done | done].
  destruct (transition_target_known _ _ _ _ Hid Hnext) as [-> | [next Hnextid]].
  - left. split; [done | apply prepare_end].
  - right. exists next. split; [done | by apply prepare_question].
Qed.

Lemma asked_question_can_be_answered_witness :
  let answered := [ {| question_id := "q1_food_type"; answer := "Indian" |} ] in
  let reply := chat {| user_input := None; conversation_history := answered |} in
  ∃ target,
    resolve_next "q1_food_type" "Indian" = Some target
    ∧ (target = "end" ∧ reply = (answered, inr (Complete answered))
       ∨ ∃ config, QUESTIONS !! target = Some config
                   ∧ reply = (answered, inr (Continue target config answered))).
Proof.
  refine (asked_question_can_be_answered
            {| user_input := None; conversation_history := [] |}
            []
            (Continue "q1_food_type"
               {| question := "What kind of food are you in the mood for?";
                  options := ["Italian"; "Mexican"; "Indian"];
                  next_question_map := dict [
                    ("Italian", "q2_italian_preference");
                    ("Mexican", "q2_mexican_spice");
                    ("Indian", "q2_indian_dish") ] |} [])
            "q1_food_type" "Indian" ["Italian"; "Mexican"; "Indian"] _ _ _ _).
  - vm_compute. reflexivity.
  - reflexivity.
  - reflexivity.
  - apply (bool_decide_unpack _). vm_compute. reflexivity.
Defined.
